(** * Polymorphic logging: the in-memory and the file-backed logger

    A shallow embedding of [inheritance.cpp]: the two implementations of
    [LoggerInterface], the C++ stream operations they rest on, and the
    [main] routine that drives both and compares what they read back.

    Conventions.
    - A [std::string] is a [list ascii]; a path ([char const *]) is a
      [string], the key of the file table.
    - The process environment is a [World]: the file table, which paths
      may be created, and the two standard output streams.
    - A member function that mutates [*this] returns the new object; a
      [const] member function returns no object.
    - [exit] ends the computation with a status: see [Outcome].

    What the environment is taken to do.
    - Opening a file for writing creates it, readable and writable, or
      cuts it to length zero; it fails on a file that may not be written
      and on a missing path that may not be created.
    - Opening a file for reading fails on a missing file and on one that
      may not be read, and changes nothing.
    - A write that was accepted does not fail later: a full disk and
      other faults of the device are not part of the model.
    - No other process touches the files while the program runs, so the
      text a reading stream has still to deliver is fixed when it opens.
    - A path names one regular file, which keeps the bytes written to it:
      links, a second spelling of a path and devices are not part of the
      model, and two paths are two files. *)

From Stdlib Require Import Ascii String ZArith Lia.
From stdpp Require Import base decidable option list strings gmap fin_maps.

(** ** Text *)

Abbreviation text := (list ascii).

(** The line terminator ['\n']. *)
Definition newline : ascii := Ascii.ascii_of_nat 10.

Definition chars (s : string) : text := String.list_ascii_of_string s.

(** ** The process environment *)

Record File := mkFile {
  data : text;          (* the bytes of the file *)
  readable : bool;      (* this process may open it for reading *)
  writable : bool       (* this process may open it for writing *)
}.

Record World := mkWorld {
  files : gmap string File;      (* the files that exist, by path *)
  creatable : string -> bool;    (* may a missing path be created? *)
  cerr : text;                   (* everything written to the error stream *)
  cout : text                    (* everything written to standard output *)
}.

Definition with_files (fs : gmap string File) (w : World) : World :=
  mkWorld fs (creatable w) (cerr w) (cout w).

Definition with_data (d : text) (f : File) : File :=
  mkFile d (readable f) (writable f).

(** A file created by this process: empty, readable and writable. *)
Definition created_file : File := mkFile [] true true.

(** [cerr << t]: the error stream is unit-buffered, the text is out at once. *)
Definition cerr_put (t : text) (w : World) : World :=
  mkWorld (files w) (creatable w) (cerr w ++ t) (cout w).

(** ** Computations that may end the process *)

Inductive Outcome (A : Type) : Type :=
| Returned (a : A) (w : World)       (* ran to its end *)
| Exited (status : Z) (w : World).   (* called [exit (status)] *)
Arguments Returned {A} a w.
Arguments Exited {A} status w.

Definition Proc (A : Type) : Type := World -> Outcome A.

Definition ret {A} (a : A) : Proc A := fun w => Returned a w.

Definition bind {A B} (c : Proc A) (k : A -> Proc B) : Proc B :=
  fun w => match c w with
           | Returned a w1 => k a w1
           | Exited s w1 => Exited s w1
           end.

(** A computation that always runs to its end. *)
Definition lift {A} (f : World -> A * World) : Proc A :=
  fun w => let '(a, w1) := f w in Returned a w1.

Definition exit {A} (status : Z) : Proc A := fun w => Exited status w.

Notation "'let*' x := c 'in' k" := (bind c (fun x => k))
  (at level 10, x pattern, c at level 100, k at level 200).

(** ** [std::fstream], used for output *)

Module fstream.

Record t := mk {
  file : option string;   (* the path it is open on *)
  buf : text;             (* written, not yet handed to the file *)
  pos : nat;              (* file offset of the next write *)
  fail : bool             (* the stream is not [good ()] *)
}.

(** A default-constructed stream. *)
Definition closed : t := mk None [] 0 false.

Definition is_open (s : t) : bool := bool_decide (is_Some (file s)).

(** [s.open (p, fstream::out)]: create the file or truncate it to length
    zero.  A stream that is already open, a file that may not be written
    and a path that may not be created all set the fail bit. *)
Definition open_out (p : string) (s : t) (w : World) : t * World :=
  if is_open s then (mk (file s) (buf s) (pos s) true, w)
  else match files w !! p with
       | Some f =>
           if writable f
           then (mk (Some p) [] 0 false,
                 with_files (<[p := with_data [] f]> (files w)) w)
           else (mk None [] 0 true, w)
       | None =>
           if creatable w p
           then (mk (Some p) [] 0 false,
                 with_files (<[p := created_file]> (files w)) w)
           else (mk None [] 0 true, w)
       end.

(** [s << t]: the characters go to the stream buffer.  A stream that is
    not good ignores them; one with no file has nowhere to put them, and
    fails unless there is no character to put. *)
Definition put (x : text) (s : t) : t :=
  if fail s then s
  else match file s with
       | Some _ => mk (file s) (buf s ++ x) (pos s) false
       | None =>
           match x with
           | [] => s
           | _ :: _ => mk None (buf s) (pos s) true
           end
       end.

(** What a write of [x] at offset [n] makes of a file's bytes [d]. *)
Definition write_at (n : nat) (x d : text) : text :=
  take n d ++ replicate (n - length d) Ascii.zero ++ x
    ++ drop (n + length x) d.

(** [filebuf::sync]: what is pending in the buffer is written to the file
    at the stream's offset. *)
Definition sync (s : t) (w : World) : t * World :=
  match file s with
  | Some p =>
      (mk (Some p) [] (pos s + length (buf s)) (fail s),
       with_files
         (alter (fun f => with_data (write_at (pos s) (buf s) (data f)) f)
                p (files w)) w)
  | None => (s, w)
  end.

(** [s.flush ()]: a stream that is good syncs its buffer; one that is not
    does nothing. *)
Definition flush (s : t) (w : World) : t * World :=
  if fail s then (s, w) else sync s w.

(** [s.close ()]: sync what is pending and give the file up; closing a
    stream that is not open sets the fail bit. *)
Definition close (s : t) (w : World) : t * World :=
  match file s with
  | Some _ => let '(s1, w1) := sync s w in (mk None [] 0 (fail s1), w1)
  | None => (mk None (buf s) (pos s) true, w)
  end.

End fstream.

(** ** [std::ifstream] and [std::getline] *)

Module ifstream.

Record t := mk {
  unread : text;    (* what is left of the file *)
  eof : bool;       (* the end of the file has been hit *)
  fail : bool       (* the open or the last read failed *)
}.

(** [ifstream infile (p)]: a missing or unreadable file leaves the stream
    failed; nothing in the world changes either way. *)
Definition open (p : string) (w : World) : t * World :=
  match files w !! p with
  | Some f => if readable f then (mk (data f) false false, w)
              else (mk [] false true, w)
  | None => (mk [] false true, w)
  end.

(** The characters up to the first newline, and what follows that
    newline; [None] when the input ends before any newline. *)
Fixpoint extract_line (d : text) : text * option text :=
  match d with
  | [] => ([], None)
  | c :: d' =>
      if decide (c = newline) then ([], Some d')
      else let '(l, r) := extract_line d' in (c :: l, r)
  end.

(** [getline (s, line)]: the stream after the call, the value of [line]
    and whether the stream still tests true.  A stream that has failed
    or is at its end reads nothing and leaves [line] alone.  Otherwise
    [line] is the text up to the next newline, which is consumed and
    dropped; reaching the end of input instead sets the eof bit, and
    also the fail bit if no character was read. *)
Definition getline (s : t) (line : text) : t * text * bool :=
  if fail s || eof s then (mk (unread s) (eof s) true, line, false)
  else match extract_line (unread s) with
       | (l, Some d') => (mk d' false false, l, true)
       | (l, None) =>
           match l with
           | [] => (mk [] true true, l, false)
           | _ :: _ => (mk [] true false, l, true)
           end
       end.

End ifstream.

(** ** The logging interface and its two implementations *)

(** [LoggerInterface]: what every logger offers.  [Log] changes the logger
    and may change the world; [Messages] is [const]: it returns the messages
    and the world, never a logger.  [destroy] is the virtual destructor. *)
Class LoggerInterface (L : Type) := {
  Log : text -> L -> World -> L * World;
  Messages : L -> World -> list text * World;
  destroy : L -> World -> World
}.

(** [InMemoryLogger] saves the log messages in memory. *)
Module InMemoryLogger.

Record t := mk { messages : list text }.

(** The defaulted constructor: an empty vector. *)
Definition new : t := mk [].

(** [messages.push_back (mesg)] *)
Definition Log (mesg : text) (l : t) : t := mk (messages l ++ [mesg]).

(** [return messages]: a copy of the vector. *)
Definition Messages (l : t) : list text := messages l.

End InMemoryLogger.

#[export] Instance InMemoryLogger_interface : LoggerInterface InMemoryLogger.t := {
  Log mesg l w := (InMemoryLogger.Log mesg l, w);
  Messages l w := (InMemoryLogger.Messages l, w);
  destroy l w := w
}.

(** [LocalLogger] saves the log messages in a file. *)
Module LocalLogger.

Record t := mk { filename : string; outfile : fstream.t }.

(** The constructor: open the file for writing or end the process. *)
Definition new (file : string) : Proc t :=
  let filename := file in
  let* outfile := lift (fstream.open_out filename fstream.closed) in
  if negb (fstream.is_open outfile) then
    let* _ := lift (fun w =>
      (tt, cerr_put (chars "Failed to open file: " ++ chars filename
                       ++ [newline]) w)) in
    exit 1
  else ret (mk filename outfile).

(** [outfile << mesg << '\n'; outfile.flush ();] *)
Definition Log (mesg : text) (l : t) (w : World) : t * World :=
  let out := fstream.put [newline] (fstream.put mesg (outfile l)) in
  let '(out, w1) := fstream.flush out w in
  (mk (filename l) out, w1).

(** [for (string line; getline (infile, line); ) messages.push_back (line);]
    run for at most [fuel] calls of [getline]. *)
Fixpoint read_lines (fuel : nat) (infile : ifstream.t) (line : text)
    (messages : list text) : list text :=
  match fuel with
  | 0 => messages
  | S fuel' =>
      let '(infile', line', ok) := ifstream.getline infile line in
      if ok then read_lines fuel' infile' line' (messages ++ [line'])
      else messages
  end.

(** Every [getline] that succeeds consumes a character, and one more call
    sees the end: one call more than there are characters is enough (see
    [read_lines_fuel]). *)
Definition Messages (l : t) (w : World) : list text * World :=
  let messages := [] in
  let '(infile, w1) := ifstream.open (filename l) w in
  (read_lines (S (length (ifstream.unread infile))) infile [] messages, w1).

(** The destructor: [outfile.close ()]. *)
Definition destroy (l : t) (w : World) : World :=
  snd (fstream.close (outfile l) w).

End LocalLogger.

#[export] Instance LocalLogger_interface : LoggerInterface LocalLogger.t := {
  Log := LocalLogger.Log;
  Messages := LocalLogger.Messages;
  destroy := LocalLogger.destroy
}.

(** A [unique_ptr<LoggerInterface>]: an object of either class, called
    through the interface. *)
Inductive Logger :=
| InMemory (l : InMemoryLogger.t)
| Local (l : LocalLogger.t).

#[export] Instance Logger_interface : LoggerInterface Logger := {
  Log mesg l w :=
    match l with
    | InMemory m => let '(m1, w1) := Log mesg m w in (InMemory m1, w1)
    | Local f => let '(f1, w1) := Log mesg f w in (Local f1, w1)
    end;
  Messages l w :=
    match l with
    | InMemory m => Messages m w
    | Local f => Messages f w
    end;
  destroy l w :=
    match l with
    | InMemory m => destroy m w
    | Local f => destroy f w
    end
}.

(** ** The harness *)

(** [operator<< (ostream &, vector<string> const &)]: every string, each
    followed by a newline. *)
Fixpoint put_lines (vs : list text) : text :=
  match vs with
  | [] => []
  | s :: vs' => s ++ [newline] ++ put_lines vs'
  end.

Section Harness.
Context {L : Type} `{LoggerInterface L}.

(** [for (auto &logger : loggers) logger->Log (mesg);] *)
Fixpoint log_to_each (mesg : text) (loggers : list L) (w : World)
    : list L * World :=
  match loggers with
  | [] => ([], w)
  | logger :: rest =>
      let '(logger1, w1) := Log mesg logger w in
      let '(rest1, w2) := log_to_each mesg rest w1 in
      (logger1 :: rest1, w2)
  end.

(** [for (auto const &mesg : testMessages) ...]: the write phase. *)
Fixpoint write_phase (msgs : list text) (loggers : list L) (w : World)
    : list L * World :=
  match msgs with
  | [] => (loggers, w)
  | mesg :: msgs' =>
      let '(loggers1, w1) := log_to_each mesg loggers w in
      write_phase msgs' loggers1 w1
  end.

(** What the harness prints on a mismatch. *)
Definition report (expected observed : list text) : text :=
  chars "expected: " ++ put_lines expected
    ++ chars "; but observed: " ++ put_lines observed ++ [newline].

(** The verification loop: the first logger whose messages differ from
    the expected ones ends the process. *)
Fixpoint verify (expected : list text) (loggers : list L) : Proc unit :=
  match loggers with
  | [] => ret tt
  | logger :: rest =>
      let* observedMessages := lift (Messages logger) in
      if bool_decide (observedMessages <> expected) then
        let* _ := lift (fun w =>
          (tt, cerr_put (report expected observedMessages) w)) in
        exit 1
      else verify expected rest
  end.

(** The vector of loggers goes out of scope: each logger is destroyed. *)
Fixpoint destroy_all (loggers : list L) (w : World) : unit * World :=
  match loggers with
  | [] => (tt, w)
  | logger :: rest => destroy_all rest (destroy logger w)
  end.

End Harness.

Definition default_filename : string := "/tmp/outfile_cpp.txt".

Definition testMessages : list text :=
  [chars "Hello, World!"; chars "abracadabra"; chars "Sayonara!"].

(** [(argc > 1) ? argv[1] : default_filename] *)
Definition filename_of (argv : list string) : string :=
  if bool_decide (1 < length argv) then nth 1 argv default_filename
  else default_filename.

Definition main (argv : list string) : Proc Z :=
  let filename := filename_of argv in
  let loggers : list Logger := [] in
  let loggers := loggers ++ [InMemory InMemoryLogger.new] in
  let* local := LocalLogger.new filename in
  let loggers := loggers ++ [Local local] in
  let* loggers := lift (write_phase testMessages loggers) in
  let* _ := verify testMessages loggers in
  let* _ := lift (destroy_all loggers) in
  ret 0%Z.

(** The exit status of the process and the world it leaves behind. *)
Definition run (c : Proc Z) (w : World) : Z * World :=
  match c w with
  | Returned status w1 => (status, w1)
  | Exited status w1 => (status, w1)
  end.

(** ** Vocabulary of the specification *)

(** The lines of a text as [getline] cuts them: every newline ends a line,
    and what follows the last newline is a line if it is not empty. *)
Fixpoint lines (d : text) : list text :=
  match d with
  | [] => []
  | c :: d' =>
      if decide (c = newline) then [] :: lines d'
      else match lines d' with
           | l :: ls => (c :: l) :: ls
           | [] => [[c]]
           end
  end.

(** A message cut at each of its newlines: one piece more than it has
    newlines. *)
Fixpoint split_lines (m : text) : list text :=
  match m with
  | [] => [[]]
  | c :: m' =>
      if decide (c = newline) then [] :: split_lines m'
      else match split_lines m' with
           | l :: ls => (c :: l) :: ls
           | [] => [[c]]
           end
  end.

(** The pieces put together again, a newline between neighbours. *)
Fixpoint join_lines (ps : list text) : text :=
  match ps with
  | [] => []
  | [p] => p
  | p :: ps' => p ++ newline :: join_lines ps'
  end.

(** What opening [p] for reading and reading it to the end gives. *)
Definition read_back (p : string) (w : World) : list text :=
  match files w !! p with
  | Some f => if readable f then lines (data f) else []
  | None => []
  end.

(** [p] can be opened for writing: it names a writable file, or no file
    and may be created. *)
Definition can_open_out (p : string) (w : World) : bool :=
  match files w !! p with
  | Some f => writable f
  | None => creatable w p
  end.

(** [p] can be opened for reading: it names a readable file. *)
Definition can_open_in (p : string) (w : World) : bool :=
  match files w !! p with
  | Some f => readable f
  | None => false
  end.

(** The bytes of the file at [p]; none when there is no such file. *)
Definition content (p : string) (w : World) : text :=
  match files w !! p with
  | Some f => data f
  | None => []
  end.

(** The state of a file logger between two calls: its stream is open on
    its file and good, nothing is pending in the buffer, and the next write
    goes to the end of the file. *)
Definition attached (l : LocalLogger.t) (w : World) : Prop :=
  fstream.file (LocalLogger.outfile l) = Some (LocalLogger.filename l)
  /\ fstream.fail (LocalLogger.outfile l) = false
  /\ fstream.buf (LocalLogger.outfile l) = []
  /\ exists f, files w !! LocalLogger.filename l = Some f
               /\ fstream.pos (LocalLogger.outfile l) = length (data f).

Section Calls.
Context {L : Type} `{LoggerInterface L}.

(** One logger told every message of a sequence, in order. *)
Fixpoint log_all (msgs : list text) (l : L) (w : World) : L * World :=
  match msgs with
  | [] => (l, w)
  | mesg :: msgs' => let '(l1, w1) := Log mesg l w in log_all msgs' l1 w1
  end.


End Calls.



(** The file at [p] after it was opened for writing: what it was, cut to
    length zero, or a new file. *)
Definition truncated (p : string) (w : World) : File :=
  match files w !! p with
  | Some f => with_data [] f
  | None => created_file
  end.

(** The world after [x] was added at the end of the file at [p]. *)
Definition append_to (p : string) (x : text) (w : World) : World :=
  with_files (alter (fun f => with_data (data f ++ x) f) p (files w)) w.

(** The diagnostic of the constructor of [LocalLogger]. *)
Definition open_failure (p : string) : text :=
  chars "Failed to open file: " ++ chars p ++ [newline].

(** The world once the file at [p] has been opened for writing. *)
Definition opened (p : string) (w : World) : World :=
  with_files (<[p := truncated p w]> (files w)) w.

(** What [Messages] returns once every message of [M] has been logged,
    in order, to the logger [l]. *)
Definition read_after_logging {L : Type} `{LoggerInterface L}
    (M : list text) (l : L) (w : World) : list text :=
  fst (Messages (fst (log_all M l w)) (snd (log_all M l w))).

(** ** Sample worlds *)

(** No file yet, every path may be created. *)
Definition empty_world : World := mkWorld ∅ (fun _ => true) [] [].

(** No file, and none may be created. *)
Definition locked_world : World := mkWorld ∅ (fun _ => false) [] [].

(** The default file exists with some old content; [r] and [wr] say
    whether this process may read and write it. *)
Definition old_file_world (r wr : bool) : World :=
  mkWorld {[ default_filename := mkFile (chars "old") r wr ]}
          (fun _ => true) [] [].

(** A message of two lines. *)
Definition two_lines : text := chars "a" ++ [newline] ++ chars "b".

(** The file a logger writes to, if it has one. *)
Definition backing (l : Logger) : option string :=
  match l with
  | InMemory _ => None
  | Local f => fstream.file (LocalLogger.outfile f)
  end.

(** A text with a newline at its end: the text itself when it is empty or
    ends in a newline, the text and a newline otherwise. *)
Definition with_final_newline (d : text) : text :=
  match last d with
  | None => []
  | Some c => if decide (c = newline) then d else d ++ [newline]
  end.

(** A second path, for the samples. *)
Definition other_filename : string := "/tmp/other.txt".

(** Two empty files, both readable and writable. *)
Definition two_files_world : World :=
  mkWorld {[ default_filename := created_file;
             other_filename := created_file ]} (fun _ => true) [] [].

(** A file logger in the state its constructor leaves it in. *)
Definition new_logger (p : string) : LocalLogger.t :=
  LocalLogger.mk p (fstream.mk (Some p) [] 0 false).

(** * Properties *)

(** ** Reading lines *)

Lemma extract_line_Some d l r :
  ifstream.extract_line d = (l, Some r) ->
  d = l ++ newline :: r /\ (newline ∉ l) /\ lines d = l :: lines r.
Proof.
  revert l; induction d as [|c d IH]; intros l; simpl; [discriminate|].
  destruct (decide (c = newline)) as [->|Hc].
  - intros [= <- <-]. split_and!; [done|apply not_elem_of_nil|done].
  - destruct (ifstream.extract_line d) as [l' r'] eqn:E.
    intros [= <- ->]. destruct (IH l' eq_refl) as (-> & Hl & Hlines).
    split_and!; [done| |by rewrite Hlines].
    rewrite not_elem_of_cons. split; [congruence|done].
Qed.

Lemma extract_line_None d l :
  ifstream.extract_line d = (l, None) ->
  l = d /\ lines d = match d with [] => [] | _ :: _ => [d] end.
Proof.
  revert l; induction d as [|c d IH]; intros l; simpl.
  - by intros [= <-].
  - destruct (decide (c = newline)); [discriminate|].
    destruct (ifstream.extract_line d) as [l' r'] eqn:E.
    intros [= <- ->]. destruct (IH l' eq_refl) as [-> Hlines].
    split; [done|]. rewrite Hlines. by destruct d.
Qed.

(** The loop of [Messages] on a stream that opened: it adds the lines of
    the unread text, whenever the fuel exceeds the length of that text. *)
Lemma read_lines_good fuel d line acc :
  length d < fuel ->
  LocalLogger.read_lines fuel (ifstream.mk d false false) line acc
  = acc ++ lines d.
Proof.
  revert d line acc; induction fuel as [|fuel IH]; intros d line acc Hlen;
    [lia|].
  simpl. unfold ifstream.getline. simpl.
  destruct (ifstream.extract_line d) as [l [r|]] eqn:E.
  - destruct (extract_line_Some _ _ _ E) as (Hd & _ & ->).
    rewrite IH; [by rewrite <- app_assoc|].
    subst d. rewrite length_app in Hlen. simpl in Hlen. lia.
  - destruct (extract_line_None _ _ E) as [-> ->].
    destruct d as [|c d]; [by rewrite app_nil_r|].
    by destruct fuel.
Qed.

(** A stream that failed to open gives no line at all. *)
Lemma read_lines_failed fuel d e line acc :
  LocalLogger.read_lines fuel (ifstream.mk d e true) line acc = acc.
Proof. by destruct fuel. Qed.

(** More fuel than [Messages] provides changes nothing: the loop has ended
    because [getline] failed, not because the fuel ran out. *)
Lemma read_lines_fuel fuel s line acc :
  ifstream.eof s = false ->
  length (ifstream.unread s) < fuel ->
  LocalLogger.read_lines fuel s line acc
  = LocalLogger.read_lines (S (length (ifstream.unread s))) s line acc.
Proof.
  destruct s as [d e [|]]; cbn [ifstream.eof ifstream.unread]; intros -> Hlen.
  - by rewrite !read_lines_failed.
  - rewrite read_lines_good by done.
    by rewrite (read_lines_good (S (length d))) by lia.
Qed.

Lemma LocalLogger_Messages_read_back l w :
  LocalLogger.Messages l w = (read_back (LocalLogger.filename l) w, w).
Proof.
  unfold LocalLogger.Messages, ifstream.open, read_back.
  destruct (files w !! LocalLogger.filename l) as [f|]; [|done].
  destruct (readable f); [|done].
  by rewrite read_lines_good by (simpl; lia).
Qed.

(** ** Lines, pieces and what the harness prints *)

Lemma split_lines_cons m : exists p ps, split_lines m = p :: ps.
Proof.
  destruct m as [|c m]; simpl; [by eauto|].
  destruct (decide (c = newline)); [by eauto|].
  destruct (split_lines m); eauto.
Qed.

Lemma lines_app_newline m rest :
  lines (m ++ newline :: rest) = split_lines m ++ lines rest.
Proof.
  induction m as [|c m IH]; simpl.
  - done.
  - destruct (decide (c = newline)); [by rewrite IH|].
    rewrite IH. by destruct (split_lines_cons m) as (p & ps & ->).
Qed.

Lemma split_lines_no_newline m : newline ∉ m -> split_lines m = [m].
Proof.
  induction m as [|c m IH]; [done|]. rewrite not_elem_of_cons.
  intros [Hc Hm]. simpl. rewrite decide_False by congruence.
  by rewrite IH.
Qed.

Lemma split_lines_length m :
  length (split_lines m) = S (length (filter (fun c => c = newline) m)).
Proof.
  induction m as [|c m IH]; [done|]. simpl. rewrite filter_cons.
  destruct (decide (c = newline)); simpl; [by rewrite IH|].
  destruct (split_lines_cons m) as (p & ps & E). by rewrite E in IH |- *.
Qed.

Lemma split_lines_newline m : newline ∈ m -> 2 <= length (split_lines m).
Proof.
  intros Hin. rewrite split_lines_length.
  assert (newline ∈ filter (fun c => c = newline) m) as Hf
    by (by apply list_elem_of_filter).
  destruct (filter _ m); [by apply elem_of_nil in Hf|simpl; lia].
Qed.

Lemma join_split_lines m : join_lines (split_lines m) = m.
Proof.
  induction m as [|c m IH]; [done|]. simpl.
  destruct (split_lines_cons m) as (p & ps & E). rewrite E in IH |- *.
  destruct (decide (c = newline)) as [->|]; [by rewrite <- IH|].
  rewrite <- IH. by destruct ps.
Qed.

Lemma split_lines_pieces m : Forall (fun p => newline ∉ p) (split_lines m).
Proof.
  induction m as [|c m IH]; simpl.
  - constructor; [apply not_elem_of_nil|constructor].
  - destruct (decide (c = newline)).
    + constructor; [apply not_elem_of_nil|done].
    + destruct (split_lines_cons m) as (p & ps & E). rewrite E in IH |- *.
      inversion IH; subst. constructor; [|done].
      rewrite not_elem_of_cons. split; [congruence|done].
Qed.

Lemma lines_put_lines M : lines (put_lines M) = flat_map split_lines M.
Proof.
  induction M as [|m M IH]; [done|]. simpl.
  by rewrite lines_app_newline, IH.
Qed.

Lemma flat_map_split_lines_id M :
  Forall (fun m => newline ∉ m) M -> flat_map split_lines M = M.
Proof.
  induction 1 as [|m M Hm _ IH]; [done|]. simpl.
  by rewrite split_lines_no_newline, IH.
Qed.

Lemma flat_map_split_lines_length M :
  length M <= length (flat_map split_lines M).
Proof.
  induction M as [|m M IH]; [done|]. simpl. rewrite length_app.
  destruct (split_lines_cons m) as (p & ps & ->). simpl. lia.
Qed.

Lemma flat_map_split_lines_longer M :
  Exists (fun m => newline ∈ m) M ->
  length M < length (flat_map split_lines M).
Proof.
  induction 1 as [m M Hm|m M _ IH]; simpl; rewrite length_app.
  - pose proof (split_lines_newline m Hm).
    pose proof (flat_map_split_lines_length M). lia.
  - destruct (split_lines_cons m) as (p & ps & ->). simpl. lia.
Qed.

(** ** The output stream and the file behind it *)

Lemma write_at_end x d : fstream.write_at (length d) x d = d ++ x.
Proof.
  unfold fstream.write_at.
  rewrite firstn_all, Nat.sub_diag, drop_ge by lia. simpl.
  by rewrite app_nil_r.
Qed.

Lemma with_files_id w : with_files (files w) w = w.
Proof. by destruct w. Qed.

Lemma with_data_id f : with_data (data f) f = f.
Proof. by destruct f. Qed.

Lemma append_to_nil p w : append_to p [] w = w.
Proof.
  transitivity (with_files (files w) w); [|apply with_files_id].
  unfold append_to. f_equal.
  apply map_eq; intros q. rewrite lookup_alter.
  case_decide; [subst q|done].
  destruct (files w !! p) as [f|]; [|done]. simpl.
  by rewrite app_nil_r, with_data_id.
Qed.

Lemma append_to_app p x y w :
  append_to p y (append_to p x w) = append_to p (x ++ y) w.
Proof.
  unfold append_to, with_files. simpl. f_equal.
  apply map_eq; intros q. destruct (decide (p = q)) as [<-|Hq].
  - rewrite !lookup_alter_eq.
    destruct (files w !! p) as [f|]; [|done]. simpl.
    by rewrite <- app_assoc.
  - by rewrite !lookup_alter_ne.
Qed.

Lemma append_to_lookup p x w f :
  files w !! p = Some f ->
  files (append_to p x w) !! p = Some (with_data (data f ++ x) f).
Proof. intros E. simpl. by rewrite lookup_alter_eq, E. Qed.

Lemma append_to_streams p x w :
  cerr (append_to p x w) = cerr w /\ cout (append_to p x w) = cout w.
Proof. done. Qed.

(** ** The constructor of [LocalLogger] *)

Lemma LocalLogger_new_cases p w :
  LocalLogger.new p w
  = if can_open_out p w
    then Returned (LocalLogger.mk p (fstream.mk (Some p) [] 0 false))
                  (opened p w)
    else Exited 1 (cerr_put (open_failure p) w).
Proof.
  unfold LocalLogger.new, bind, lift, fstream.open_out, can_open_out,
    opened, truncated. simpl.
  destruct (files w !! p) as [f|].
  - by destruct (writable f).
  - by destruct (creatable w p).
Qed.

Lemma LocalLogger_new_Returned p w l w1 :
  LocalLogger.new p w = Returned l w1 ->
  can_open_out p w = true
  /\ l = LocalLogger.mk p (fstream.mk (Some p) [] 0 false)
  /\ w1 = opened p w.
Proof.
  rewrite LocalLogger_new_cases.
  destruct (can_open_out p w); [|discriminate]. by intros [= <- <-].
Qed.

Lemma LocalLogger_new_attached p w l w1 :
  LocalLogger.new p w = Returned l w1 ->
  LocalLogger.filename l = p /\ attached l w1
  /\ files w1 !! p = Some (truncated p w).
Proof.
  intros (_ & -> & ->)%LocalLogger_new_Returned.
  split_and!; [done| |apply lookup_insert_eq].
  split_and!; [done..|]. exists (truncated p w).
  split; [apply lookup_insert_eq|].
  unfold truncated. by destruct (files w !! p).
Qed.

(** A path that named no file names a fresh one afterwards, and so does a
    path that named a file this process may read. *)
Lemma LocalLogger_new_fresh p w l w1 :
  LocalLogger.new p w = Returned l w1 ->
  files w !! p = None \/ can_open_in p w = true ->
  files w1 !! p = Some created_file.
Proof.
  intros Hnew Hp.
  destruct (LocalLogger_new_Returned _ _ _ _ Hnew) as (Hopen & _ & _).
  destruct (LocalLogger_new_attached _ _ _ _ Hnew) as (_ & _ & ->).
  f_equal. unfold truncated, can_open_in, can_open_out in *.
  destruct (files w !! p) as [[d r wr]|]; [|done].
  destruct Hp as [|Hr]; [done|]. simpl in *. by subst.
Qed.

(** ** [LocalLogger::Log] *)

Lemma LocalLogger_Log_attached mesg l w :
  attached l w ->
  exists l1,
    LocalLogger.Log mesg l w
    = (l1, append_to (LocalLogger.filename l) (mesg ++ [newline]) w)
    /\ LocalLogger.filename l1 = LocalLogger.filename l
    /\ attached l1 (append_to (LocalLogger.filename l) (mesg ++ [newline]) w).
Proof.
  destruct l as [p [file buf pos fail]].
  intros (Hfile & Hfail & Hbuf & f & Hf & Hpos). simpl in *. subst.
  eexists. split_and!.
  - unfold LocalLogger.Log, fstream.put, fstream.flush, fstream.sync. simpl.
    f_equal. unfold append_to. f_equal.
    apply map_eq; intros q. rewrite !lookup_alter.
    case_decide; [subst q|done]. rewrite Hf. simpl.
    by rewrite write_at_end.
  - done.
  - split_and!; [done..|]. eexists. split.
    + by apply append_to_lookup.
    + simpl. rewrite !length_app. simpl. lia.
Qed.

Lemma log_all_attached M l w :
  attached l w ->
  exists l1,
    log_all M l w = (l1, append_to (LocalLogger.filename l) (put_lines M) w)
    /\ LocalLogger.filename l1 = LocalLogger.filename l
    /\ attached l1 (append_to (LocalLogger.filename l) (put_lines M) w).
Proof.
  revert l w; induction M as [|m M IH]; intros l w Hl.
  - exists l. by rewrite append_to_nil.
  - destruct (LocalLogger_Log_attached m l w Hl) as (l1 & HLog & Hname & Hl1).
    destruct (IH _ _ Hl1) as (l2 & Hall & Hname2 & Hl2).
    exists l2. rewrite Hname, append_to_app in Hall, Hl2.
    cbn [log_all Log LocalLogger_interface]. rewrite HLog.
    cbn [put_lines]. rewrite (app_assoc m), Hall.
    split_and!; [done|congruence|done].
Qed.

Lemma log_all_InMemory M l w :
  log_all M l w = (InMemoryLogger.mk (InMemoryLogger.messages l ++ M), w).
Proof.
  revert l; induction M as [|m M IH]; intros [ms]; simpl.
  - by rewrite app_nil_r.
  - rewrite IH. simpl. by rewrite <- app_assoc.
Qed.

(** ** The write phase as a sequence of calls *)

Section CallOrder.
Context {L : Type} `{LoggerInterface L}.





End CallOrder.




(** The two loggers of [main] do not disturb each other: the write phase
    leaves each as if it alone had been told every message. *)
Lemma write_phase_pair M m f w :
  write_phase M [InMemory m; Local f] w
  = ([InMemory (fst (log_all M m w)); Local (fst (log_all M f w))],
     snd (log_all M f w)).
Proof.
  revert m f w; induction M as [|x M IH]; intros m f w; [done|].
  cbn [write_phase log_to_each log_all Log Logger_interface
       InMemoryLogger_interface LocalLogger_interface].
  destruct (LocalLogger.Log x f w) as [f1 w1]. rewrite IH.
  by rewrite !log_all_InMemory.
Qed.

(** ** Reading back *)

Lemma Logger_Messages_frame (l : Logger) w : snd (Messages l w) = w.
Proof.
  destruct l as [m|f]; [done|].
  cbn [Messages Logger_interface LocalLogger_interface].
  by rewrite LocalLogger_Messages_read_back.
Qed.

Lemma differs_refl (x : list text) : bool_decide (x <> x) = false.
Proof. apply bool_decide_eq_false_2. by intros []. Qed.

Lemma verify_nil expected w :
  verify (L := Logger) expected [] w = Returned tt w.
Proof. done. Qed.

Lemma verify_cons expected (l : Logger) ls w :
  verify expected (l :: ls) w
  = if bool_decide (fst (Messages l w) <> expected)
    then Exited 1 (cerr_put (report expected (fst (Messages l w))) w)
    else verify expected ls w.
Proof.
  pose proof (Logger_Messages_frame l w) as Hw.
  cbn [verify]. unfold bind, lift at 1.
  destruct (Messages l w) as [obs w1]. simpl in *. subst w1.
  by destruct (bool_decide (obs <> expected)).
Qed.

(** ** Giving the file up *)

Lemma LocalLogger_destroy_attached l w : attached l w -> LocalLogger.destroy l w = w.
Proof.
  destruct l as [p [file buf pos fail]].
  intros (Hfile & Hfail & Hbuf & f & Hf & Hpos). simpl in *. subst.
  unfold LocalLogger.destroy, fstream.close, fstream.sync. simpl.
  transitivity (with_files (files w) w); [|apply with_files_id]. f_equal.
  apply map_eq; intros q. rewrite lookup_alter.
  case_decide; [subst q|done]. rewrite Hf. simpl.
  by rewrite write_at_end, app_nil_r, with_data_id.
Qed.

(** ** The whole program *)

Lemma testMessages_no_newline : Forall (fun m => newline ∉ m) testMessages.
Proof.
  unfold testMessages.
  repeat (apply Forall_cons; split;
          [by apply (bool_decide_unpack _); vm_compute|]).
  by apply Forall_nil.
Qed.

Lemma truncated_data p w : data (truncated p w) = [].
Proof. unfold truncated. by destruct (files w !! p). Qed.

Lemma read_back_written p M w :
  read_back p (append_to p (put_lines M) (opened p w))
  = if readable (truncated p w) then flat_map split_lines M else [].
Proof.
  unfold read_back.
  rewrite (append_to_lookup _ _ _ (truncated p w)) by apply lookup_insert_eq.
  simpl. rewrite truncated_data. simpl. by rewrite lines_put_lines.
Qed.

(** Every run of [main] is one of three: the file cannot be opened; it is
    written and read back as written; it is written and cannot be read. *)
Lemma main_cases argv w :
  run (main argv) w
  = let p := filename_of argv in
    let w2 := append_to p (put_lines testMessages) (opened p w) in
    if can_open_out p w then
      if readable (truncated p w) then (0%Z, w2)
      else (1%Z, cerr_put (report testMessages []) w2)
    else (1%Z, cerr_put (open_failure p) w).
Proof.
  cbn zeta. set (p := filename_of argv).
  unfold run, main. fold p. unfold bind at 1.
  pose proof (LocalLogger_new_cases p w) as Hnew. rewrite Hnew.
  destruct (can_open_out p w); [|done].
  destruct (LocalLogger_new_attached _ _ _ _ Hnew) as (_ & Hatt & _).
  set (l := LocalLogger.mk p _) in *.
  destruct (log_all_attached testMessages l _ Hatt) as (l2 & Hall & Hname & Hatt2).
  change (LocalLogger.filename l) with p in *.
  set (w2 := append_to p (put_lines testMessages) (opened p w)) in *.
  cbn [app]. unfold bind at 1, lift at 1.
  rewrite write_phase_pair, Hall, log_all_InMemory. cbn [fst snd app].
  unfold bind at 1. rewrite verify_cons.
  cbn [Messages Logger_interface InMemoryLogger_interface fst
       InMemoryLogger.Messages InMemoryLogger.messages InMemoryLogger.new].
  rewrite differs_refl, verify_cons.
  cbn [Messages Logger_interface LocalLogger_interface].
  rewrite LocalLogger_Messages_read_back, Hname. cbn [fst].
  rewrite (read_back_written p testMessages w : read_back p w2 = _).
  rewrite (flat_map_split_lines_id _ testMessages_no_newline).
  destruct (readable (truncated p w)).
  - rewrite differs_refl, verify_nil. unfold bind, lift, ret.
    cbn [destroy_all destroy Logger_interface InMemoryLogger_interface
         LocalLogger_interface].
    by rewrite (LocalLogger_destroy_attached _ _ Hatt2).
  - by rewrite bool_decide_eq_true_2 by done.
Qed.

Lemma put_lines_app A B : put_lines (A ++ B) = put_lines A ++ put_lines B.
Proof.
  induction A as [|a A IH]; [done|]. simpl. by rewrite IH, <- !app_assoc.
Qed.

Lemma content_append_to p x w :
  is_Some (files w !! p) -> content p (append_to p x w) = content p w ++ x.
Proof.
  intros [f Hf]. unfold content.
  by rewrite (append_to_lookup _ _ _ _ Hf), Hf.
Qed.

Lemma read_after_logging_fresh p w l w1 M :
  LocalLogger.new p w = Returned l w1 ->
  files w1 !! p = Some created_file ->
  read_after_logging M l w1 = flat_map split_lines M.
Proof.
  intros Hnew Hfresh.
  destruct (LocalLogger_new_attached _ _ _ _ Hnew) as (Hp & Hatt & _).
  destruct (log_all_attached M l w1 Hatt) as (l2 & Hall & Hname & _).
  unfold read_after_logging. rewrite Hall. cbn [fst snd].
  cbn [Messages LocalLogger_interface].
  rewrite LocalLogger_Messages_read_back, Hname, Hp. cbn [fst].
  unfold read_back. rewrite (append_to_lookup _ _ _ _ Hfresh). simpl.
  apply lines_put_lines.
Qed.

(** [operator<<] written out: every string with a newline after it. *)
Lemma put_lines_flat_map vs :
  put_lines vs = flat_map (fun m => m ++ [newline]) vs.
Proof.
  induction vs as [|v vs IH]; [done|]. cbn [put_lines flat_map].
  by rewrite IH, <- app_assoc.
Qed.

Lemma report_text expected observed w :
  cerr_put (report expected observed) w
  = mkWorld (files w) (creatable w)
      (cerr w ++ chars "expected: "
         ++ flat_map (fun m => m ++ [newline]) expected
         ++ chars "; but observed: "
         ++ flat_map (fun m => m ++ [newline]) observed ++ [newline])
      (cout w).
Proof. unfold cerr_put, report. by rewrite !put_lines_flat_map. Qed.

(** * The claims *)

(** C1.  Round trip: for every sequence of messages [M], logging the
    messages of [M] in order and then calling [Messages] returns exactly
    [M].  This holds for the in-memory logger without condition, and for
    the file logger on a fresh backing file (the constructor has just made
    it, empty and readable) when no message contains a newline. *)
Theorem round_trip (M : list text) :
  (forall w, read_after_logging M InMemoryLogger.new w = M)
  /\ (forall p w l w1,
        LocalLogger.new p w = Returned l w1 ->
        files w1 !! p = Some created_file ->
        Forall (fun m => newline ∉ m) M ->
        read_after_logging M l w1 = M).
Proof.
  split.
  - intros w. unfold read_after_logging. by rewrite log_all_InMemory.
  - intros p w l w1 Hnew Hfresh HM.
    rewrite (read_after_logging_fresh _ _ _ _ _ Hnew Hfresh).
    by apply flat_map_split_lines_id.
Qed.

Lemma round_trip_witness :
  read_after_logging testMessages InMemoryLogger.new empty_world
  = testMessages
  /\ read_after_logging testMessages
       (LocalLogger.mk default_filename
          (fstream.mk (Some default_filename) [] 0 false))
       (opened default_filename empty_world)
     = testMessages.
Proof.
  destruct (round_trip testMessages) as [Hmem Hfile].
  split; [apply Hmem|].
  apply (Hfile default_filename empty_world).
  - reflexivity.
  - vm_compute. reflexivity.
  - apply testMessages_no_newline.
Defined.

(** C2.  A path that cannot be opened for writing is fatal to the
    constructor of [LocalLogger]: the process exits with status 1, after
    the diagnostic ["Failed to open file: "], the path and a newline went
    to the error stream; no logger is returned, and no file is touched: the
    files are as they were.  [main] ends the same way. *)
Theorem open_failure_is_fatal p w :
  can_open_out p w = false ->
  LocalLogger.new p w = Exited 1 (cerr_put (open_failure p) w)
  /\ (forall l w1, LocalLogger.new p w <> Returned l w1)
  /\ cerr (cerr_put (open_failure p) w)
     = cerr w ++ chars "Failed to open file: " ++ chars p ++ [newline]
  /\ files (cerr_put (open_failure p) w) = files w
  /\ (forall argv, filename_of argv = p ->
        run (main argv) w = (1%Z, cerr_put (open_failure p) w)).
Proof.
  intros Hopen.
  assert (LocalLogger.new p w = Exited 1 (cerr_put (open_failure p) w))
    as Hnew by (by rewrite LocalLogger_new_cases, Hopen).
  split_and!; [done| |done|done|].
  - intros l w1. by rewrite Hnew.
  - intros argv <-. rewrite main_cases. cbn zeta. by rewrite Hopen.
Qed.

Lemma open_failure_is_fatal_witness :
  can_open_out default_filename locked_world = false
  /\ LocalLogger.new default_filename locked_world
     = Exited 1 (cerr_put (open_failure default_filename) locked_world)
  /\ run (main []) (old_file_world true false)
     = (1%Z, cerr_put (open_failure default_filename)
               (old_file_world true false)).
Proof.
  split; [reflexivity|]. split.
  - apply (open_failure_is_fatal default_filename locked_world).
    reflexivity.
  - apply (open_failure_is_fatal default_filename (old_file_world true false));
      reflexivity.
Defined.

(** C3.  The verification loop has two outcomes.  Either every logger
    reads back the expected sequence, and the loop ends without writing
    anything; or some logger reads back something else, and the process
    exits with status 1 after the error stream was given the text
    ["expected: "], every expected message with a newline after it,
    ["; but observed: "], every observed message with a newline after it,
    and a newline.  For [main], once the file is open: either the file
    reads back as the test messages and the process ends with status 0,
    both output streams as they were; or it does not, and the process
    exits with status 1 after that same text, and standard output is as it
    was. *)
Theorem verification_outcome :
  (forall expected (loggers : list Logger) w,
     (Forall (fun l => fst (Messages l w) = expected) loggers
      /\ verify expected loggers w = Returned tt w)
     \/ (exists l, l ∈ loggers /\ fst (Messages l w) <> expected
         /\ verify expected loggers w
            = Exited 1
                (mkWorld (files w) (creatable w)
                   (cerr w ++ chars "expected: "
                      ++ flat_map (fun m => m ++ [newline]) expected
                      ++ chars "; but observed: "
                      ++ flat_map (fun m => m ++ [newline])
                           (fst (Messages l w))
                      ++ [newline])
                   (cout w))))
  /\ (forall argv w,
        can_open_out (filename_of argv) w = true ->
        let p := filename_of argv in
        let w2 := append_to p (put_lines testMessages) (opened p w) in
        (read_back p w2 = testMessages
         /\ run (main argv) w = (0%Z, w2)
         /\ cerr (snd (run (main argv) w)) = cerr w
         /\ cout (snd (run (main argv) w)) = cout w)
        \/ (read_back p w2 <> testMessages
            /\ run (main argv) w
               = (1%Z,
                  mkWorld (files w2) (creatable w)
                    (cerr w ++ chars "expected: "
                       ++ flat_map (fun m => m ++ [newline]) testMessages
                       ++ chars "; but observed: "
                       ++ flat_map (fun m => m ++ [newline])
                            (read_back p w2)
                       ++ [newline])
                    (cout w)))).
Proof.
  split.
  - intros expected loggers w. induction loggers as [|l ls IH].
    + left. split; [by apply Forall_nil|done].
    + rewrite verify_cons.
      destruct (bool_decide_reflect (fst (Messages l w) <> expected))
        as [Hne|Heq].
      * right. exists l.
        split_and!; [apply list_elem_of_here|done|by rewrite report_text].
      * apply dec_stable in Heq.
        destruct IH as [[Hall Hv]|(l' & Hin & Hne & Hv)].
        -- left. split; [|done]. apply Forall_cons. by split.
        -- right. exists l'. split_and!; [by apply list_elem_of_further|done..].
  - intros argv w Hopen p w2. rewrite main_cases. cbn zeta.
    rewrite Hopen. fold p. unfold w2.
    rewrite (read_back_written p testMessages w).
    rewrite (flat_map_split_lines_id _ testMessages_no_newline).
    destruct (readable (truncated p w)); [left|right].
    + by split_and!.
    + split; [done|]. by rewrite report_text.
Qed.

Lemma verification_outcome_witness :
  run (main []) empty_world
  = (0%Z, append_to default_filename (put_lines testMessages)
            (opened default_filename empty_world))
  /\ fst (run (main []) (old_file_world false true)) = 1%Z
  /\ cerr (snd (run (main []) (old_file_world false true)))
     = chars "expected: "
         ++ chars "Hello, World!" ++ [newline]
         ++ chars "abracadabra" ++ [newline]
         ++ chars "Sayonara!" ++ [newline]
         ++ chars "; but observed: " ++ [newline].
Proof.
  destruct verification_outcome as [_ Hmain]. split.
  - destruct (Hmain [] empty_world eq_refl) as [(_ & Hrun & _)|[Hne _]].
    + exact Hrun.
    + exfalso. apply Hne. vm_compute. reflexivity.
  - destruct (Hmain [] (old_file_world false true) eq_refl)
      as [(Heq & _)|[_ Hrun]].
    + exfalso. vm_compute in Heq. discriminate Heq.
    + rewrite Hrun. split; reflexivity.
Defined.

(** C4.  Reading twice: for every logger, of either class and in any
    state, a second call of [Messages] right after a first returns the
    same sequence. *)
Theorem read_twice (l : Logger) w :
  fst (Messages l (snd (Messages l w))) = fst (Messages l w).
Proof. by rewrite Logger_Messages_frame. Qed.

(** C5.  [LocalLogger::Log] hands the stream exactly the message and one
    newline, and flushes before it returns: nothing stays in the buffer,
    and the file has grown by the message and the newline.  After any
    number of calls the file is the messages logged so far, in order, each
    followed by a newline. *)
Theorem Log_writes_through p w l w1 M m :
  LocalLogger.new p w = Returned l w1 ->
  let l2 := fst (log_all M l w1) in
  let w2 := snd (log_all M l w1) in
  let l3 := fst (LocalLogger.Log m l2 w2) in
  let w3 := snd (LocalLogger.Log m l2 w2) in
  fstream.buf (fstream.put [newline]
                 (fstream.put m (LocalLogger.outfile l2)))
  = m ++ [newline]
  /\ fstream.buf (LocalLogger.outfile l3) = []
  /\ content p w3 = content p w2 ++ m ++ [newline]
  /\ content p w2 = put_lines M
  /\ content p w3 = put_lines (M ++ [m]).
Proof.
  intros Hnew.
  destruct (LocalLogger_new_attached _ _ _ _ Hnew) as (Hp & Hatt & Hf).
  destruct (log_all_attached M l w1 Hatt) as (l2 & Hall & Hname & Hatt2).
  destruct (LocalLogger_Log_attached m l2 _ Hatt2)
    as (l3 & HLog & Hname3 & Hatt3).
  rewrite Hall. cbn zeta. cbn [fst snd]. rewrite HLog. cbn [fst snd].
  rewrite Hname, Hp in *.
  assert (content p (append_to p (put_lines M) w1) = put_lines M) as Hw2.
  { rewrite content_append_to by (by rewrite Hf).
    unfold content. by rewrite Hf, truncated_data. }
  assert (content p (append_to p (m ++ [newline])
                       (append_to p (put_lines M) w1))
          = put_lines M ++ m ++ [newline]) as Hw3.
  { rewrite content_append_to, Hw2; [done|].
    by rewrite (append_to_lookup _ _ _ _ Hf). }
  split_and!.
  - destruct Hatt2 as (Hfile & Hfail & Hbuf & _).
    unfold fstream.put. rewrite Hfail, Hfile. simpl.
    by rewrite Hbuf.
  - by destruct Hatt3 as (_ & _ & Hbuf & _).
  - by rewrite Hw3, Hw2.
  - done.
  - by rewrite Hw3, put_lines_app.
Qed.

Lemma Log_writes_through_witness :
  content default_filename
    (snd (LocalLogger.Log two_lines
            (LocalLogger.mk default_filename
               (fstream.mk (Some default_filename) [] 0 false))
            (opened default_filename (old_file_world true true))))
  = two_lines ++ [newline].
Proof.
  pose proof (Log_writes_through default_filename (old_file_world true true)
                _ _ [] two_lines eq_refl) as H.
  cbn zeta in H. destruct H as (_ & _ & _ & _ & H). exact H.
Defined.

(** C6.  Construction starts from nothing.  Whenever the path can be
    opened for writing, whether it names no file yet or a file with bytes
    in it, the constructor of [LocalLogger] returns; and when it returns,
    the backing file exists and is empty, whatever it held before, and
    [Messages] on the new logger returns the empty sequence.  A new
    [InMemoryLogger] holds no message either. *)
Theorem construction_starts_empty p w :
  (can_open_out p w = true ->
   exists l w1,
     LocalLogger.new p w = Returned l w1
     /\ is_Some (files w1 !! p)
     /\ content p w1 = []
     /\ Messages l w1 = ([], w1))
  /\ (forall l w1,
        LocalLogger.new p w = Returned l w1 ->
        is_Some (files w1 !! p)
        /\ content p w1 = []
        /\ Messages l w1 = ([], w1))
  /\ InMemoryLogger.messages InMemoryLogger.new = []
  /\ (forall w', Messages InMemoryLogger.new w' = ([], w')).
Proof.
  assert (forall l w1,
            LocalLogger.new p w = Returned l w1 ->
            is_Some (files w1 !! p)
            /\ content p w1 = []
            /\ Messages l w1 = ([], w1)) as Hret.
  { intros l w1 Hnew.
    destruct (LocalLogger_new_attached _ _ _ _ Hnew) as (Hp & _ & Hf).
    split_and!; [by rewrite Hf| |].
    - unfold content. by rewrite Hf, truncated_data.
    - cbn [Messages LocalLogger_interface].
      rewrite LocalLogger_Messages_read_back, Hp. unfold read_back.
      rewrite Hf, truncated_data. by destruct (readable _). }
  split_and!; [|done..].
  intros Hopen. pose proof (LocalLogger_new_cases p w) as Hnew.
  rewrite Hopen in Hnew. eexists _, _. split; [exact Hnew|].
  by apply Hret.
Qed.

Lemma construction_starts_empty_witness :
  (content default_filename (old_file_world true true) = chars "old"
   /\ exists l w1,
        LocalLogger.new default_filename (old_file_world true true)
        = Returned l w1
        /\ is_Some (files w1 !! default_filename)
        /\ content default_filename w1 = []
        /\ Messages l w1 = ([], w1))
  /\ (files empty_world !! default_filename = None
      /\ exists l w1,
           LocalLogger.new default_filename empty_world = Returned l w1
           /\ is_Some (files w1 !! default_filename)
           /\ content default_filename w1 = []
           /\ Messages l w1 = ([], w1)).
Proof.
  split; (split; [reflexivity|]).
  - destruct (construction_starts_empty default_filename
                (old_file_world true true)) as [H _].
    apply H. reflexivity.
  - destruct (construction_starts_empty default_filename empty_world)
      as [H _].
    apply H. reflexivity.
Defined.

(** C7.  A message with newlines in it comes back in pieces.  On a fresh
    backing file [Messages] returns, for every message logged, its pieces
    between newlines: one piece more than the message has newlines, none
    of them with a newline, and joined by newlines they give the message.
    So when some message holds a newline, what is read is not what was
    logged. *)
Theorem newline_splits_message p w l w1 M :
  LocalLogger.new p w = Returned l w1 ->
  files w1 !! p = Some created_file ->
  read_after_logging M l w1 = flat_map split_lines M
  /\ (forall m,
        length (split_lines m)
        = S (length (filter (fun c => c = newline) m))
        /\ Forall (fun piece => newline ∉ piece) (split_lines m)
        /\ join_lines (split_lines m) = m)
  /\ (forall m, newline ∈ m -> 2 <= length (split_lines m))
  /\ (Exists (fun m => newline ∈ m) M ->
      length M < length (read_after_logging M l w1)
      /\ read_after_logging M l w1 <> M).
Proof.
  intros Hnew Hfresh.
  rewrite (read_after_logging_fresh _ _ _ _ _ Hnew Hfresh).
  split_and!; [done| | |].
  - intros m. split_and!;
      [apply split_lines_length|apply split_lines_pieces
      |apply join_split_lines].
  - apply split_lines_newline.
  - intros HM. pose proof (flat_map_split_lines_longer M HM) as Hlen.
    split; [done|]. intros E. rewrite E in Hlen. lia.
Qed.

Lemma newline_splits_message_witness :
  read_after_logging [two_lines]
    (LocalLogger.mk default_filename
       (fstream.mk (Some default_filename) [] 0 false))
    (opened default_filename empty_world)
  = [chars "a"; chars "b"].
Proof.
  pose proof (newline_splits_message default_filename empty_world _ _
                [two_lines] eq_refl eq_refl) as H.
  destruct H as (H & _). exact H.
Defined.

(** C8.  [Messages] changes nothing.  The in-memory logger returns its
    vector, and the world is as before; the file logger leaves the world
    as before, the backing file with it.  Neither call returns a logger:
    the object is the one it was, and a [Log] after the call does what it
    would have done without it. *)
Theorem Messages_changes_nothing :
  (forall (m : InMemoryLogger.t) w,
     Messages m w = (InMemoryLogger.messages m, w))
  /\ (forall (f : LocalLogger.t) w,
        snd (Messages f w) = w
        /\ content (LocalLogger.filename f) (snd (Messages f w))
           = content (LocalLogger.filename f) w)
  /\ (forall (l : Logger) w, snd (Messages l w) = w)
  /\ (forall (l : Logger) w mesg,
        Log mesg l (snd (Messages l w)) = Log mesg l w).
Proof.
  split_and!.
  - done.
  - intros f w. cbn [Messages LocalLogger_interface].
    by rewrite LocalLogger_Messages_read_back.
  - apply Logger_Messages_frame.
  - intros l w mesg. by rewrite Logger_Messages_frame.
Qed.



(** C10.  When the backing file cannot be opened for reading, because it
    is gone or may not be read, [LocalLogger::Messages] still returns: the
    sequence is empty, the world is unchanged, and no [getline] has
    succeeded. *)
Theorem unreadable_file_reads_empty (l : LocalLogger.t) w :
  can_open_in (LocalLogger.filename l) w = false ->
  LocalLogger.Messages l w = ([], w)
  /\ Messages (Local l) w = ([], w)
  /\ (forall line,
        snd (ifstream.getline
               (fst (ifstream.open (LocalLogger.filename l) w)) line)
        = false).
Proof.
  intros Hopen. unfold can_open_in in Hopen.
  assert (LocalLogger.Messages l w = ([], w)) as HM.
  { rewrite LocalLogger_Messages_read_back. unfold read_back.
    destruct (files w !! LocalLogger.filename l) as [f|]; [|done].
    by rewrite Hopen. }
  split_and!; [done..|].
  intros line. unfold ifstream.open.
  destruct (files w !! LocalLogger.filename l) as [f|]; [|done].
  by rewrite Hopen.
Qed.

Lemma unreadable_file_reads_empty_witness :
  LocalLogger.Messages (LocalLogger.mk default_filename fstream.closed)
    empty_world = ([], empty_world)
  /\ LocalLogger.Messages
       (LocalLogger.mk default_filename fstream.closed)
       (old_file_world false true)
     = ([], old_file_world false true).
Proof.
  split.
  - apply (unreadable_file_reads_empty
             (LocalLogger.mk default_filename fstream.closed) empty_world).
    reflexivity.
  - apply (unreadable_file_reads_empty
             (LocalLogger.mk default_filename fstream.closed)
             (old_file_world false true)).
    reflexivity.
Defined.

(** * Further properties of the code *)

(** ** What one call of [Log] does to the world *)

(** A call of [LocalLogger::Log] rewrites at most the file its stream is
    open on, in a way that does not depend on the rest of the world, and
    the logger it leaves does not depend on the world at all. *)
Lemma LocalLogger_Log_shape mesg (f : LocalLogger.t) :
  exists (f1 : LocalLogger.t) (g : File -> File),
    LocalLogger.filename f1 = LocalLogger.filename f
    /\ fstream.file (LocalLogger.outfile f1)
       = fstream.file (LocalLogger.outfile f)
    /\ forall w,
         LocalLogger.Log mesg f w
         = (f1, match fstream.file (LocalLogger.outfile f) with
                | Some p => with_files (alter g p (files w)) w
                | None => w
                end).
Proof.
  destruct f as [name [[p|] buf pos [|]]];
    unfold LocalLogger.Log, fstream.put, fstream.flush, fstream.sync; simpl.
  - exists (LocalLogger.mk name (fstream.mk (Some p) buf pos true)), id.
    split_and!; [done..|]. intros w. f_equal.
    transitivity (with_files (files w) w); [by rewrite with_files_id|].
    f_equal. apply map_eq; intros q. rewrite lookup_alter.
    case_decide; [subst q|done]. by destruct (files w !! p).
  - by exists
      (LocalLogger.mk name
         (fstream.mk (Some p) []
            (pos + length ((buf ++ mesg) ++ [newline])) false)),
      (fun f => with_data
                  (fstream.write_at pos ((buf ++ mesg) ++ [newline])
                     (data f)) f).
  - by exists (LocalLogger.mk name (fstream.mk None buf pos true)), id.
  - exists (LocalLogger.mk name (fstream.mk None buf pos true)), id.
    by destruct mesg.
Qed.

Lemma Logger_Log_shape mesg (l : Logger) :
  exists (l1 : Logger) (g : File -> File),
    backing l1 = backing l
    /\ forall w,
         Log mesg l w
         = (l1, match backing l with
                | Some p => with_files (alter g p (files w)) w
                | None => w
                end).
Proof.
  destruct l as [m|f].
  - exists (InMemory (InMemoryLogger.Log mesg m)), id. by split.
  - destruct (LocalLogger_Log_shape mesg f) as (f1 & g & _ & Hfile & HLog).
    exists (Local f1), g. split; [done|]. intros w.
    cbn [Log Logger_interface LocalLogger_interface backing].
    by rewrite HLog.
Qed.

Lemma read_back_files p w w' :
  files w' !! p = files w !! p -> read_back p w' = read_back p w.
Proof. unfold read_back. by intros ->. Qed.

(** X1.  A call of [Log], through the interface, changes no file but the
    one the logger's stream is open on, and writes to neither standard
    stream. *)
Theorem Log_touches_only_its_file (l : Logger) mesg w q :
  backing l <> Some q ->
  files (snd (Log mesg l w)) !! q = files w !! q
  /\ cerr (snd (Log mesg l w)) = cerr w
  /\ cout (snd (Log mesg l w)) = cout w.
Proof.
  intros Hq. destruct (Logger_Log_shape mesg l) as (l1 & g & _ & HLog).
  rewrite HLog. cbn [snd].
  destruct (backing l) as [p|]; [|done]. simpl.
  split_and!; [|done..]. apply lookup_alter_ne. congruence.
Qed.

Lemma Log_touches_only_its_file_witness :
  files (snd (Log two_lines (Local (new_logger default_filename))
                two_files_world)) !! other_filename
  = Some created_file.
Proof.
  destruct (Log_touches_only_its_file (Local (new_logger default_filename))
              two_lines two_files_world other_filename) as [H _].
  - simpl. discriminate.
  - rewrite H. reflexivity.
Defined.

(** X2.  Two loggers that do not write to the same file may be told
    their messages in either order: the world they leave is the same, and
    each logger ends as if the other had not been called. *)
Theorem Log_commutes (a b : Logger) x y w :
  (forall p, backing a = Some p -> backing b <> Some p) ->
  snd (Log y b (snd (Log x a w))) = snd (Log x a (snd (Log y b w)))
  /\ fst (Log x a (snd (Log y b w))) = fst (Log x a w)
  /\ fst (Log y b (snd (Log x a w))) = fst (Log y b w).
Proof.
  intros Hab.
  destruct (Logger_Log_shape x a) as (a1 & ga & _ & Ha).
  destruct (Logger_Log_shape y b) as (b1 & gb & _ & Hb).
  rewrite !Ha, !Hb. cbn [fst snd]. split_and!; [|done..].
  destruct (backing a) as [p|], (backing b) as [q|]; [|done..].
  unfold with_files. simpl. f_equal.
  apply alter_alter_ne. intros ->. by apply (Hab p).
Qed.

Lemma Log_commutes_witness :
  snd (Log (chars "b") (Local (new_logger other_filename))
         (snd (Log (chars "a") (Local (new_logger default_filename))
                 two_files_world)))
  = snd (Log (chars "a") (Local (new_logger default_filename))
           (snd (Log (chars "b") (Local (new_logger other_filename))
                   two_files_world))).
Proof.
  apply (Log_commutes (Local (new_logger default_filename))
           (Local (new_logger other_filename))).
  simpl. intros p [= <-]. discriminate.
Defined.

(** ** The life of a file logger *)

Lemma logged_state p w l w1 M :
  LocalLogger.new p w = Returned l w1 ->
  exists l2,
    log_all M l w1 = (l2, append_to p (put_lines M) w1)
    /\ LocalLogger.filename l2 = p
    /\ attached l2 (append_to p (put_lines M) w1)
    /\ content p (append_to p (put_lines M) w1) = put_lines M.
Proof.
  intros Hnew.
  destruct (LocalLogger_new_attached _ _ _ _ Hnew) as (Hp & Hatt & Hf).
  destruct (log_all_attached M l w1 Hatt) as (l2 & Hall & Hname & Hatt2).
  rewrite Hp in *. exists l2. split_and!; [done..|].
  rewrite content_append_to by (by rewrite Hf).
  unfold content. by rewrite Hf, truncated_data.
Qed.

(** X3.  The stream of a file logger stays usable.  After the constructor
    and any number of calls of [Log], the stream is still open on the
    logger's file and good, its buffer is empty, and its offset is the
    number of bytes logged, which is the length of the file. *)
Theorem stream_stays_attached p w l w1 M :
  LocalLogger.new p w = Returned l w1 ->
  let l2 := fst (log_all M l w1) in
  let w2 := snd (log_all M l w1) in
  LocalLogger.filename l2 = p
  /\ fstream.file (LocalLogger.outfile l2) = Some p
  /\ fstream.fail (LocalLogger.outfile l2) = false
  /\ fstream.buf (LocalLogger.outfile l2) = []
  /\ fstream.pos (LocalLogger.outfile l2) = length (put_lines M)
  /\ length (content p w2) = length (put_lines M).
Proof.
  intros Hnew.
  destruct (logged_state _ _ _ _ M Hnew) as (l2 & Hall & Hname & Hatt & Hc).
  cbn zeta. rewrite Hall. cbn [fst snd].
  destruct Hatt as (Hfile & Hfail & Hbuf & f & Hf & Hpos).
  rewrite Hname in *. split_and!; [done..| |by rewrite Hc].
  rewrite Hpos, <- Hc. unfold content. by rewrite Hf.
Qed.

Lemma stream_stays_attached_witness :
  fstream.pos
    (LocalLogger.outfile
       (fst (log_all testMessages (new_logger default_filename)
               (opened default_filename empty_world))))
  = length (put_lines testMessages).
Proof.
  pose proof (stream_stays_attached default_filename empty_world _ _
                testMessages eq_refl) as H.
  cbn zeta in H. destruct H as (_ & _ & _ & _ & H & _). exact H.
Defined.

(** X4.  The destructor loses nothing and changes nothing.  Every call of
    [Log] has flushed, so when a file logger is destroyed after the
    constructor and any number of calls of [Log], closing the stream
    leaves the world as it is, the file with every message in it; the
    stream is closed afterwards. *)
Theorem destructor_loses_nothing p w l w1 M :
  LocalLogger.new p w = Returned l w1 ->
  let l2 := fst (log_all M l w1) in
  let w2 := snd (log_all M l w1) in
  LocalLogger.destroy l2 w2 = w2
  /\ destroy (Local l2) w2 = w2
  /\ content p (LocalLogger.destroy l2 w2) = put_lines M
  /\ fstream.is_open (fst (fstream.close (LocalLogger.outfile l2) w2))
     = false.
Proof.
  intros Hnew.
  destruct (logged_state _ _ _ _ M Hnew) as (l2 & Hall & Hname & Hatt & Hc).
  cbn zeta. rewrite Hall. cbn [fst snd].
  pose proof (LocalLogger_destroy_attached _ _ Hatt) as Hd.
  split_and!; [exact Hd|exact Hd|by rewrite Hd|].
  destruct Hatt as (Hfile & _).
  unfold fstream.close, fstream.sync. by rewrite Hfile.
Qed.

Lemma destructor_loses_nothing_witness :
  content default_filename
    (LocalLogger.destroy
       (fst (log_all testMessages (new_logger default_filename)
               (opened default_filename empty_world)))
       (snd (log_all testMessages (new_logger default_filename)
               (opened default_filename empty_world))))
  = put_lines testMessages.
Proof.
  pose proof (destructor_loses_nothing default_filename empty_world _ _
                testMessages eq_refl) as H.
  cbn zeta in H. destruct H as (_ & _ & H & _). exact H.
Defined.

(** ** What [Messages] can return *)

Lemma lines_no_newline d : Forall (fun m => newline ∉ m) (lines d).
Proof.
  induction d as [|c d IH]; simpl; [by apply Forall_nil|].
  destruct (decide (c = newline)).
  - apply Forall_cons. split; [apply not_elem_of_nil|done].
  - destruct (lines d) as [|l ls].
    + apply Forall_cons. split; [|by apply Forall_nil].
      rewrite not_elem_of_cons. split; [congruence|apply not_elem_of_nil].
    + apply Forall_cons in IH as [Hl Hls]. apply Forall_cons.
      split; [|done]. rewrite not_elem_of_cons. split; [congruence|done].
Qed.

Lemma lines_nil d : lines d = [] -> d = [].
Proof.
  destruct d as [|c d]; [done|]. simpl.
  destruct (decide (c = newline)); [done|]. by destruct (lines d).
Qed.

Lemma with_final_newline_cons c d :
  d <> [] -> with_final_newline (c :: d) = c :: with_final_newline d.
Proof.
  destruct d as [|x d]; [done|]. intros _. unfold with_final_newline.
  change (last (c :: x :: d)) with (last (x :: d)).
  destruct (last (x :: d)) as [e|] eqn:E.
  - by destruct (decide (e = newline)).
  - by apply last_None in E.
Qed.

Lemma put_lines_lines d : put_lines (lines d) = with_final_newline d.
Proof.
  induction d as [|c d IH]; [done|]. cbn [lines].
  destruct (decide (c = newline)) as [->|Hc].
  - cbn [put_lines app]. rewrite IH. destruct d as [|x d]; [done|].
    by rewrite (with_final_newline_cons newline (x :: d)).
  - destruct (lines d) as [|l ls] eqn:E.
    + apply lines_nil in E as ->. unfold with_final_newline.
      cbn [last put_lines app]. by rewrite decide_False.
    + rewrite (with_final_newline_cons c d), <- IH; [done|].
      intros ->. discriminate E.
Qed.

(** X5.  [LocalLogger::Messages] never returns a message with a newline
    in it, whatever the file holds and whoever wrote it. *)
Theorem Messages_without_newline (f : LocalLogger.t) w :
  Forall (fun m => newline ∉ m) (fst (LocalLogger.Messages f w)).
Proof.
  rewrite LocalLogger_Messages_read_back. cbn [fst]. unfold read_back.
  destruct (files w !! LocalLogger.filename f) as [file|];
    [|by apply Forall_nil].
  destruct (readable file); [apply lines_no_newline|by apply Forall_nil].
Qed.

(** X6.  Printing what was read gives the file back.  When the backing
    file can be read, the messages [Messages] returns, printed by
    [operator<<], are the bytes of the file, with a newline added at the
    end if the file is not empty and does not end in one: an empty file
    has no message, an empty line is an empty message, and a last line
    without a newline is still a message. *)
Theorem print_read_back (f : LocalLogger.t) w :
  can_open_in (LocalLogger.filename f) w = true ->
  put_lines (fst (LocalLogger.Messages f w))
  = with_final_newline (content (LocalLogger.filename f) w).
Proof.
  unfold can_open_in, content.
  rewrite LocalLogger_Messages_read_back. cbn [fst]. unfold read_back.
  destruct (files w !! LocalLogger.filename f) as [file|]; [|done].
  intros ->. apply put_lines_lines.
Qed.

Lemma print_read_back_witness :
  fst (LocalLogger.Messages (new_logger default_filename)
         (old_file_world true true)) = [chars "old"]
  /\ put_lines (fst (LocalLogger.Messages (new_logger default_filename)
                       (old_file_world true true)))
     = chars "old" ++ [newline].
Proof.
  split; [reflexivity|].
  rewrite (print_read_back (new_logger default_filename)
             (old_file_world true true) eq_refl).
  reflexivity.
Defined.

(** ** What [operator<<] prints *)

Lemma put_lines_split_lines m : put_lines (split_lines m) = m ++ [newline].
Proof.
  induction m as [|c m IH]; [done|]. cbn [split_lines].
  destruct (decide (c = newline)) as [->|Hc].
  - cbn [put_lines app]. by rewrite IH.
  - destruct (split_lines_cons m) as (piece & ps & E). rewrite E in *.
    cbn [put_lines app] in *. by rewrite IH.
Qed.

Lemma put_lines_pieces M : put_lines (flat_map split_lines M) = put_lines M.
Proof.
  induction M as [|m M IH]; [done|]. cbn [flat_map put_lines].
  by rewrite put_lines_app, put_lines_split_lines, IH, <- app_assoc.
Qed.

(** X7.  On strings without newlines [operator<<] loses nothing: two
    vectors of such strings that print the same are equal. *)
Theorem printing_is_injective (A B : list text) :
  Forall (fun m => newline ∉ m) A ->
  Forall (fun m => newline ∉ m) B ->
  put_lines A = put_lines B ->
  A = B.
Proof.
  intros HA HB E.
  rewrite <- (flat_map_split_lines_id A HA), <- (flat_map_split_lines_id B HB).
  by rewrite <- !lines_put_lines, E.
Qed.

Lemma printing_is_injective_witness :
  put_lines testMessages = put_lines testMessages
  /\ testMessages = testMessages.
Proof.
  split; [reflexivity|].
  apply (printing_is_injective testMessages testMessages
           testMessages_no_newline testMessages_no_newline eq_refl).
Defined.

(** X8.  [operator<<] prints a vector piece by piece: the output for two
    vectors one after the other is the two outputs one after the other,
    and its length is the lengths of the strings and one newline for
    each. *)
Theorem printing_concatenates (A B : list text) :
  put_lines (A ++ B) = put_lines A ++ put_lines B
  /\ length (put_lines A) = sum_list (length <$> A) + length A.
Proof.
  split; [apply put_lines_app|].
  induction A as [|a A IH]; [done|].
  cbn [put_lines fmap list_fmap sum_list sum_list_with length].
  rewrite !length_app, IH. simpl. lia.
Qed.

(** X9.  What a file logger reads back prints like what was logged, for
    every sequence of messages, with or without newlines in them: when a
    message with a newline makes the comparison of [main] fail, the two
    sequences of the report are the same text. *)
Theorem read_back_prints_alike p w l w1 M :
  LocalLogger.new p w = Returned l w1 ->
  files w1 !! p = Some created_file ->
  put_lines (read_after_logging M l w1) = put_lines M
  /\ report M (read_after_logging M l w1) = report M M.
Proof.
  intros Hnew Hfresh.
  rewrite (read_after_logging_fresh _ _ _ _ _ Hnew Hfresh).
  unfold report. by rewrite put_lines_pieces.
Qed.

Lemma read_back_prints_alike_witness :
  read_after_logging [two_lines] (new_logger default_filename)
    (opened default_filename empty_world) <> [two_lines]
  /\ put_lines (read_after_logging [two_lines]
                  (new_logger default_filename)
                  (opened default_filename empty_world))
     = put_lines [two_lines].
Proof.
  split; [vm_compute; discriminate|].
  apply (read_back_prints_alike default_filename empty_world _ _
           [two_lines] eq_refl eq_refl).
Defined.

(** ** The program as a whole *)

Lemma truncated_readable p w :
  readable (truncated p w) = true
  <-> files w !! p = None \/ can_open_in p w = true.
Proof.
  unfold truncated, can_open_in.
  destruct (files w !! p) as [f|]; simpl; [|by intuition].
  split; [by right|]. by intros [|].
Qed.

Lemma truncated_writable p w :
  can_open_out p w = true -> writable (truncated p w) = true.
Proof.
  unfold truncated, can_open_out. by destruct (files w !! p).
Qed.

(** X10.  [main] keeps to its file.  Whatever the arguments and however
    the run ends, no file but the one [main] chose is created or changed,
    and nothing is written to standard output. *)
Theorem main_touches_only_its_file argv w q :
  q <> filename_of argv ->
  files (snd (run (main argv) w)) !! q = files w !! q
  /\ cout (snd (run (main argv) w)) = cout w.
Proof.
  intros Hq. rewrite main_cases. cbn zeta.
  destruct (can_open_out (filename_of argv) w); [|done].
  assert (files (append_to (filename_of argv) (put_lines testMessages)
                   (opened (filename_of argv) w)) !! q
          = files w !! q) as Hfiles.
  { simpl. rewrite lookup_alter_ne by done. by apply lookup_insert_ne. }
  by destruct (readable (truncated (filename_of argv) w)).
Qed.

Lemma main_touches_only_its_file_witness :
  files (snd (run (main []) two_files_world)) !! other_filename
  = Some created_file.
Proof.
  destruct (main_touches_only_its_file [] two_files_world other_filename)
    as [H _].
  - discriminate.
  - rewrite H. reflexivity.
Defined.

(** X11.  The exit status of [main] is 0 or 1, and it is 1 exactly when
    [main] has written to the error stream: with status 0 the error
    stream is as it was, with status 1 it has grown.  Status 0 is reached
    only if the chosen file could be opened for writing and, before the
    run, either did not exist or could be read. *)
Theorem main_exit_status argv w :
  ((fst (run (main argv) w) = 0%Z
    /\ cerr (snd (run (main argv) w)) = cerr w)
   \/ (fst (run (main argv) w) = 1%Z
       /\ exists t, t <> []
                    /\ cerr (snd (run (main argv) w)) = cerr w ++ t))
  /\ (fst (run (main argv) w) = 0%Z ->
      can_open_out (filename_of argv) w = true
      /\ (files w !! filename_of argv = None
          \/ can_open_in (filename_of argv) w = true)).
Proof.
  rewrite main_cases. cbn zeta. set (p := filename_of argv).
  pose proof (truncated_readable p w) as Hr.
  destruct (can_open_out p w);
    [destruct (readable (truncated p w))|]; cbn [fst snd].
  - split; [by left|]. intros _. split; [done|]. by apply Hr.
  - split; [|done]. right. split; [done|].
    by exists (report testMessages []).
  - split; [|done]. right. split; [done|].
    by exists (open_failure p).
Qed.

Lemma main_exit_status_witness :
  can_open_out default_filename (old_file_world true true) = true
  /\ can_open_in default_filename (old_file_world true true) = true.
Proof.
  assert (fst (run (main []) (old_file_world true true)) = 0%Z) as H0
    by (vm_compute; reflexivity).
  destruct (proj2 (main_exit_status [] (old_file_world true true)) H0)
    as [Ho [Hn|Hi]].
  - vm_compute in Hn. discriminate Hn.
  - split; [exact Ho|exact Hi].
Defined.

Lemma opened_again p x w :
  can_open_out p w = true ->
  can_open_out p (append_to p x (opened p w)) = true
  /\ truncated p (append_to p x (opened p w)) = truncated p w
  /\ opened p (append_to p x (opened p w)) = opened p w.
Proof.
  intros Hopen.
  assert (files (append_to p x (opened p w)) !! p
          = Some (with_data (data (truncated p w) ++ x) (truncated p w)))
    as Hf by (apply append_to_lookup, lookup_insert_eq).
  assert (truncated p (append_to p x (opened p w)) = truncated p w) as Ht.
  { unfold truncated at 1. rewrite Hf. unfold with_data. simpl.
    rewrite <- (truncated_data p w). by destruct (truncated p w). }
  split_and!; [|done|].
  - unfold can_open_out. rewrite Hf. simpl. by apply truncated_writable.
  - unfold opened at 1. rewrite Ht. unfold opened, with_files. simpl.
    f_equal. apply map_eq; intros q. destruct (decide (p = q)) as [<-|Hq].
    + by rewrite !lookup_insert_eq.
    + rewrite !lookup_insert_ne, lookup_alter_ne by done.
      by rewrite lookup_insert_ne.
Qed.

(** X12.  A run that ended with status 0 can be repeated: the file is
    cut to length zero when it is opened, so a second run from the world
    the first one left ends with status 0 again and leaves the same world,
    the three messages in the file once. *)
Theorem main_rerun argv w :
  fst (run (main argv) w) = 0%Z ->
  run (main argv) (snd (run (main argv) w)) = run (main argv) w.
Proof.
  rewrite (main_cases argv w). cbn zeta. set (p := filename_of argv).
  destruct (can_open_out p w) eqn:Hopen; [|discriminate].
  destruct (readable (truncated p w)) eqn:Hread; [|discriminate].
  intros _. cbn [snd]. rewrite main_cases. cbn zeta. fold p.
  destruct (opened_again p (put_lines testMessages) w Hopen)
    as (-> & -> & ->).
  by rewrite Hread.
Qed.

Lemma main_rerun_witness :
  run (main []) (snd (run (main []) (old_file_world true true)))
  = run (main []) (old_file_world true true).
Proof.
  apply (main_rerun [] (old_file_world true true)).
  vm_compute. reflexivity.
Defined.

(** ** Logging in several steps *)

Section Steps.
Context {L : Type} `{LoggerInterface L}.

Lemma log_all_app (A B : list text) (l : L) w :
  log_all (A ++ B) l w
  = log_all B (fst (log_all A l w)) (snd (log_all A l w)).
Proof.
  revert l w; induction A as [|a A IH]; intros l w; [done|].
  cbn [app log_all]. destruct (Log a l w) as [l1 w1]. apply IH.
Qed.

End Steps.

(** X13.  Reading keeps up with logging.  On a fresh backing file and
    with messages without newlines, [Messages] after a first batch of
    calls of [Log] returns that batch, and after a second batch it returns
    the first followed by the second: a logger can be read at any time and
    each reading begins with the one before. *)
Theorem reading_follows_logging p w l w1 (A B : list text) :
  LocalLogger.new p w = Returned l w1 ->
  files w1 !! p = Some created_file ->
  Forall (fun m => newline ∉ m) A ->
  Forall (fun m => newline ∉ m) B ->
  read_after_logging A l w1 = A
  /\ read_after_logging B (fst (log_all A l w1)) (snd (log_all A l w1))
     = A ++ B.
Proof.
  intros Hnew Hfresh HA HB. split.
  - rewrite (read_after_logging_fresh _ _ _ _ _ Hnew Hfresh).
    by apply flat_map_split_lines_id.
  - pose proof (read_after_logging_fresh _ _ _ _ (A ++ B) Hnew Hfresh) as E.
    unfold read_after_logging in *. rewrite log_all_app in E. rewrite E.
    apply flat_map_split_lines_id. by apply Forall_app.
Qed.

Lemma reading_follows_logging_witness :
  read_after_logging [chars "late"]
    (fst (log_all testMessages (new_logger default_filename)
            (opened default_filename empty_world)))
    (snd (log_all testMessages (new_logger default_filename)
            (opened default_filename empty_world)))
  = testMessages ++ [chars "late"].
Proof.
  apply (reading_follows_logging default_filename empty_world _ _
           testMessages [chars "late"] eq_refl eq_refl
           testMessages_no_newline).
  apply Forall_cons. split; [|by apply Forall_nil].
  apply (bool_decide_unpack _). vm_compute. exact I.
Defined.

(** X14.  The in-memory logger keeps its history.  From any state, after
    more calls of [Log] it returns what it returned before followed by the
    new messages, newlines or not, and the calls leave the world alone. *)
Theorem in_memory_history (l : InMemoryLogger.t) (M : list text) w :
  InMemoryLogger.Messages (fst (log_all M l w))
  = InMemoryLogger.Messages l ++ M
  /\ snd (log_all M l w) = w
  /\ read_after_logging M (InMemory l) w = InMemoryLogger.Messages l ++ M.
Proof.
  rewrite log_all_InMemory. split_and!; [done..|].
  unfold read_after_logging.
  assert (forall x, log_all M (InMemory x) w
                    = (InMemory (InMemoryLogger.mk
                                   (InMemoryLogger.messages x ++ M)), w))
    as E.
  { clear. induction M as [|m M IH]; intros [ms]; simpl.
    - by rewrite app_nil_r.
    - rewrite IH. simpl. by rewrite <- app_assoc. }
  by rewrite E.
Qed.

(** X15.  The verification stops at the first logger that differs: when
    the loggers before it read back the expected sequence, the report is
    about this logger, and the loggers after it play no part. *)
Theorem first_mismatch_is_reported expected (before after : list Logger)
    (l : Logger) w :
  Forall (fun l' => fst (Messages l' w) = expected) before ->
  fst (Messages l w) <> expected ->
  verify expected (before ++ l :: after) w
  = Exited 1 (cerr_put (report expected (fst (Messages l w))) w).
Proof.
  intros Hbefore Hl. induction Hbefore as [|b before Hb _ IH].
  - cbn [app]. rewrite verify_cons. by rewrite bool_decide_eq_true_2.
  - cbn [app]. rewrite verify_cons, Hb. by rewrite differs_refl.
Qed.

Lemma first_mismatch_is_reported_witness :
  verify [two_lines]
    [InMemory (InMemoryLogger.mk [two_lines]);
     Local (new_logger default_filename);
     InMemory InMemoryLogger.new]
    empty_world
  = Exited 1 (cerr_put (report [two_lines] []) empty_world).
Proof.
  apply (first_mismatch_is_reported [two_lines]
           [InMemory (InMemoryLogger.mk [two_lines])]
           [InMemory InMemoryLogger.new]
           (Local (new_logger default_filename)) empty_world).
  - apply Forall_cons. split; [reflexivity|by apply Forall_nil].
  - vm_compute. discriminate.
Defined.

(** X16.  The constructor of [LocalLogger] keeps to its file.  When it
    returns, every other file is as it was and nothing was written to the
    error stream; a file that existed keeps who may read and write it and
    loses its bytes, and a file that did not exist is new. *)
Theorem constructor_touches_only_its_file p w l w1 :
  LocalLogger.new p w = Returned l w1 ->
  (forall q, q <> p -> files w1 !! q = files w !! q)
  /\ cerr w1 = cerr w /\ cout w1 = cout w
  /\ (forall f, files w !! p = Some f ->
        files w1 !! p = Some (mkFile [] (readable f) (writable f))
        /\ writable f = true)
  /\ (files w !! p = None ->
        files w1 !! p = Some created_file /\ creatable w p = true).
Proof.
  intros (Hopen & -> & ->)%LocalLogger_new_Returned.
  unfold opened, truncated, can_open_out in *. simpl.
  split_and!; [|done..| |].
  - intros q Hq. by apply lookup_insert_ne.
  - intros f Hf. rewrite Hf in *. by rewrite lookup_insert_eq.
  - intros Hf. rewrite Hf in *. by rewrite lookup_insert_eq.
Qed.

Lemma constructor_touches_only_its_file_witness :
  files (opened default_filename (old_file_world false true))
    !! default_filename
  = Some (mkFile [] false true).
Proof.
  destruct (constructor_touches_only_its_file default_filename
              (old_file_world false true) _ _ eq_refl)
    as (_ & _ & _ & H & _).
  destruct (H (mkFile (chars "old") false true) eq_refl) as [E _].
  exact E.
Defined.

(** ** Loggers side by side *)

Lemma Log_logger_any_world mesg (l : Logger) w w' :
  fst (Log mesg l w) = fst (Log mesg l w')
  /\ backing (fst (Log mesg l w)) = backing l.
Proof.
  destruct (Logger_Log_shape mesg l) as (l1 & g & Hb & HLog).
  by rewrite !HLog.
Qed.

Lemma Log_lookup_other mesg (l : Logger) w p :
  backing l <> Some p -> files (snd (Log mesg l w)) !! p = files w !! p.
Proof.
  intros Hp. destruct (Logger_Log_shape mesg l) as (l1 & g & _ & HLog).
  rewrite HLog. cbn [snd]. destruct (backing l) as [q|]; [|done].
  simpl. apply lookup_alter_ne. congruence.
Qed.

Lemma Log_lookup_agree mesg (l : Logger) w w' p :
  files w !! p = files w' !! p ->
  files (snd (Log mesg l w)) !! p = files (snd (Log mesg l w')) !! p.
Proof.
  intros E. destruct (Logger_Log_shape mesg l) as (l1 & g & _ & HLog).
  rewrite !HLog. cbn [snd]. destruct (backing l) as [q|]; [|done].
  simpl. rewrite !lookup_alter. case_decide; [subst q|done].
  by rewrite E.
Qed.

Lemma log_all_logger_any_world M (l : Logger) w w' :
  fst (log_all M l w) = fst (log_all M l w').
Proof.
  revert l w w'; induction M as [|m M IH]; intros l w w'; [done|].
  cbn [log_all]. destruct (Log_logger_any_world m l w w') as [E _].
  destruct (Log m l w) as [l1 w1], (Log m l w') as [l1' w1'].
  simpl in E. subst l1'. apply IH.
Qed.

Lemma log_all_lookup_agree M (l : Logger) w w' p :
  files w !! p = files w' !! p ->
  files (snd (log_all M l w)) !! p = files (snd (log_all M l w')) !! p.
Proof.
  revert l w w'; induction M as [|m M IH]; intros l w w' E; [done|].
  cbn [log_all]. destruct (Log_logger_any_world m l w w') as [El _].
  pose proof (Log_lookup_agree m l w w' p E) as Ew.
  destruct (Log m l w) as [l1 w1], (Log m l w') as [l1' w1'].
  simpl in *. subst l1'. by apply IH.
Qed.

Lemma log_to_each_loggers mesg (loggers : list Logger) w :
  fst (log_to_each mesg loggers w)
  = (fun l => fst (Log mesg l w)) <$> loggers.
Proof.
  revert w; induction loggers as [|l ls IH]; intros w; [done|].
  cbn [log_to_each fmap list_fmap].
  destruct (Log mesg l w) as [l1 w1] eqn:E. specialize (IH w1).
  destruct (log_to_each mesg ls w1) as [ls1 w2]. simpl in *. subst ls1.
  f_equal. apply list_fmap_ext. intros _ x _.
  apply Log_logger_any_world.
Qed.

Lemma log_to_each_lookup_other mesg (loggers : list Logger) w p :
  Forall (fun l => backing l <> Some p) loggers ->
  files (snd (log_to_each mesg loggers w)) !! p = files w !! p.
Proof.
  intros Hp; revert w; induction Hp as [|l ls Hl _ IH]; intros w; [done|].
  cbn [log_to_each]. pose proof (Log_lookup_other mesg l w p Hl) as E.
  destruct (Log mesg l w) as [l1 w1]. specialize (IH w1).
  destruct (log_to_each mesg ls w1) as [ls1 w2]. simpl in *. congruence.
Qed.

Lemma log_to_each_lookup_one mesg (before after : list Logger) l w p :
  Forall (fun x => backing x <> Some p) before ->
  Forall (fun x => backing x <> Some p) after ->
  files (snd (log_to_each mesg (before ++ l :: after) w)) !! p
  = files (snd (Log mesg l w)) !! p.
Proof.
  intros Hb Ha; revert w; induction Hb as [|b bs Hb' _ IH]; intros w.
  - cbn [app log_to_each]. destruct (Log mesg l w) as [l1 w1].
    pose proof (log_to_each_lookup_other mesg after w1 p Ha) as E.
    by destruct (log_to_each mesg after w1).
  - cbn [app log_to_each].
    pose proof (Log_lookup_other mesg b w p Hb') as E.
    destruct (Log mesg b w) as [b1 w1]. specialize (IH w1).
    destruct (log_to_each mesg (bs ++ l :: after) w1) as [ls1 w2].
    simpl in *. rewrite IH. by apply Log_lookup_agree.
Qed.

Lemma write_phase_loggers M (loggers : list Logger) w :
  fst (write_phase M loggers w) = (fun l => fst (log_all M l w)) <$> loggers.
Proof.
  revert loggers w; induction M as [|m M IH]; intros ls w.
  - simpl. by rewrite list_fmap_id.
  - cbn [write_phase]. pose proof (log_to_each_loggers m ls w) as E.
    destruct (log_to_each m ls w) as [ls1 w1]. cbn [fst] in E. subst ls1.
    rewrite IH, <- list_fmap_compose. apply list_fmap_ext. intros _ l _.
    unfold compose. cbn [log_all]. destruct (Log m l w) as [l1 w2].
    cbn [fst]. apply log_all_logger_any_world.
Qed.

Lemma write_phase_lookup_one M (before after : list Logger) l w w' p :
  Forall (fun x => backing x <> Some p) before ->
  Forall (fun x => backing x <> Some p) after ->
  files w !! p = files w' !! p ->
  files (snd (write_phase M (before ++ l :: after) w)) !! p
  = files (snd (log_all M l w')) !! p.
Proof.
  revert before after l w w'; induction M as [|m M IH];
    intros before after l w w' Hb Ha E; [done|].
  cbn [write_phase log_all].
  pose proof (log_to_each_loggers m (before ++ l :: after) w) as El.
  pose proof (log_to_each_lookup_one m before after l w p Hb Ha) as Ew.
  destruct (log_to_each m (before ++ l :: after) w) as [ls1 w1].
  cbn [fst snd] in El, Ew. subst ls1. rewrite fmap_app, fmap_cons.
  destruct (Log_logger_any_world m l w w') as [Ell _].
  pose proof (Log_lookup_agree m l w w' p E) as Eww.
  rewrite Ell. destruct (Log m l w') as [l1 w1']. cbn [fst snd] in *.
  apply IH.
  - apply Forall_fmap. eapply Forall_impl; [exact Hb|]. intros x Hx.
    unfold compose. by rewrite (proj2 (Log_logger_any_world m x w w)).
  - apply Forall_fmap. eapply Forall_impl; [exact Ha|]. intros x Hx.
    unfold compose. by rewrite (proj2 (Log_logger_any_world m x w w)).
  - congruence.
Qed.

(** X17.  The loggers of the write phase do not disturb each other,
    however many there are.  Each logger ends as if it alone had been told
    the messages; and when no other logger of the collection writes to a
    file, that file ends as if its logger alone had been told them. *)
Theorem write_phase_keeps_loggers_apart M (before after : list Logger) l w p :
  Forall (fun x => backing x <> Some p) before ->
  Forall (fun x => backing x <> Some p) after ->
  fst (write_phase M (before ++ l :: after) w)
  = (fun x => fst (log_all M x w)) <$> (before ++ l :: after)
  /\ files (snd (write_phase M (before ++ l :: after) w)) !! p
     = files (snd (log_all M l w)) !! p.
Proof.
  intros Hb Ha. split; [apply write_phase_loggers|].
  by apply write_phase_lookup_one.
Qed.

Lemma write_phase_keeps_loggers_apart_witness :
  files (snd (write_phase testMessages
                [Local (new_logger other_filename);
                 Local (new_logger default_filename);
                 InMemory InMemoryLogger.new]
                two_files_world)) !! default_filename
  = files (snd (log_all testMessages (Local (new_logger default_filename))
                  two_files_world)) !! default_filename.
Proof.
  apply (write_phase_keeps_loggers_apart testMessages
           [Local (new_logger other_filename)]
           [InMemory InMemoryLogger.new]
           (Local (new_logger default_filename))
           two_files_world default_filename).
  - apply Forall_cons. split; [simpl; discriminate|by apply Forall_nil].
  - apply Forall_cons. split; [simpl; discriminate|by apply Forall_nil].
Defined.
